(** * blink_led_modular/src/blink.c: a shallow embedding

    The translation unit holds two functions,

<<
    void blink_led_init(void){ DDRB |= (1 << PB0); }
    void blink_led(void){
        PORTB |= (1 << PB0);  _delay_ms(1000);
        PORTB &= ~(1 << PB0); _delay_ms(1000);
    }
>>

    Both act on the special-function registers of port B, which are
    [volatile uint8_t] objects.  A compound assignment [R op= e] on such an
    object is one volatile read of [R], the operation carried out in [int]
    after integer promotion, and one volatile write of the result converted
    back to [uint8_t].  The embedding threads the machine state through a
    small state monad and logs every volatile access and every delay. *)

From Stdlib Require Import ZArith List Lia Bool.
From Stdlib Require Import Permutation.
Import ListNotations.
Local Open Scope Z_scope.

(** ** Machine state *)

(** The two special-function registers blink.c names. *)
Inductive ioreg : Type :=
| DDRB    (* data direction register of port B *)
| PORTB.  (* output data register of port B *)

Definition ioreg_eqb (a b : ioreg) : bool :=
  match a, b with
  | DDRB, DDRB | PORTB, PORTB => true
  | _, _ => false
  end.

(** What an observer of the bus and of the clock sees, in program order. *)
Inductive event : Type :=
| EvRead  (r : ioreg) (v : Z)
| EvWrite (r : ioreg) (v : Z)
| EvDelay (ms : Z).

Record mcu : Type := mkMcu {
  regs     : ioreg -> Z;     (* register file, one byte per register *)
  clock_ms : Z;              (* time spent blocked, in milliseconds *)
  trace    : list event      (* oldest event first *)
}.

Definition upd (f : ioreg -> Z) (r : ioreg) (v : Z) : ioreg -> Z :=
  fun r' => if ioreg_eqb r r' then v else f r'.

(** ** The state monad of the embedding *)

Definition M (A : Type) : Type := mcu -> A * mcu.

Definition ret {A : Type} (a : A) : M A := fun s => (a, s).

Definition bind {A B : Type} (m : M A) (k : A -> M B) : M B :=
  fun s => let (a, s') := m s in k a s'.

Declare Scope mcu_scope.
Delimit Scope mcu_scope with mcu.
Notation "x <- m ;; k" := (bind m (fun x => k))
  (at level 61, m at next level, right associativity) : mcu_scope.
Notation "m ;; k" := (bind m (fun _ => k))
  (at level 61, right associativity) : mcu_scope.
Local Open Scope mcu_scope.

Definition exec {A : Type} (m : M A) (s : mcu) : mcu := snd (m s).

(** ** Primitives *)

(** Conversion of an [int] to [uint8_t]: reduction modulo 2^8. *)
Definition to_uint8 (z : Z) : Z := z mod 256.

(** A volatile read of register [r]. *)
Definition sfr_read (r : ioreg) : M Z :=
  fun s =>
    (regs s r,
     {| regs := regs s; clock_ms := clock_ms s;
        trace := trace s ++ [EvRead r (regs s r)] |}).

(** A volatile write of the [int] value [v] to the [uint8_t] register [r]. *)
Definition sfr_write (r : ioreg) (v : Z) : M unit :=
  fun s =>
    (tt,
     {| regs := upd (regs s) r (to_uint8 v); clock_ms := clock_ms s;
        trace := trace s ++ [EvWrite r (to_uint8 v)] |}).

(** [R |= m] and [R &= m] on a volatile register.  The operation is done
    in [int], 16 bits wide on AVR: the promoted register value lies in
    0..255 and the masks of blink.c are [1] and [~1 = -2], so no [int]
    operation overflows and unbounded integers compute the same result. *)
Definition or_assign (r : ioreg) (m : Z) : M unit :=
  v <- sfr_read r ;; sfr_write r (Z.lor v m).

Definition and_assign (r : ioreg) (m : Z) : M unit :=
  v <- sfr_read r ;; sfr_write r (Z.land v m).

(** Modelled from the spec: the macro [PB0] comes from the platform header
    <avr/io.h>, which is not part of the sources; the specification fixes the
    bit index of the controlled pin at position 0 of its port. *)
Definition PB0 : Z := 0.

(** Modelled from the spec: [_delay_ms] comes from the platform header
    <util/delay.h>, which is not part of the sources; the specification
    describes it as a blocking delay that takes a duration in milliseconds,
    is accurate, always completes and cannot be cancelled.  It is one
    indivisible step that advances the clock by its argument. *)
Definition _delay_ms (ms : Z) : M unit :=
  fun s =>
    (tt,
     {| regs := regs s; clock_ms := clock_ms s + ms;
        trace := trace s ++ [EvDelay ms] |}).

(** ** The two functions of blink.c *)

Definition blink_led_init : M unit :=
  or_assign DDRB (Z.shiftl 1 PB0).

Definition blink_led : M unit :=
  or_assign PORTB (Z.shiftl 1 PB0) ;;
  _delay_ms 1000 ;;
  and_assign PORTB (Z.lnot (Z.shiftl 1 PB0)) ;;
  _delay_ms 1000.

(** [n] calls of [f] one after the other, as a caller's loop makes them. *)
Fixpoint call_times (n : nat) (f : M unit) : M unit :=
  match n with
  | O => ret tt
  | S k => f ;; call_times k f
  end.

(** ** Reading a trace *)

(** The events logged between state [s] and a later state [s']. *)
Definition emitted (s s' : mcu) : list event :=
  skipn (length (trace s)) (trace s').

(** The values written to register [r], in order. *)
Fixpoint writes_to (r : ioreg) (evs : list event) : list Z :=
  match evs with
  | [] => []
  | EvWrite r' v :: tl =>
      if ioreg_eqb r r' then v :: writes_to r tl else writes_to r tl
  | _ :: tl => writes_to r tl
  end.

(** All register writes, in order. *)
Fixpoint writes (evs : list event) : list (ioreg * Z) :=
  match evs with
  | [] => []
  | EvWrite r v :: tl => (r, v) :: writes tl
  | _ :: tl => writes tl
  end.

(** The requested durations of the delays, in order. *)
Fixpoint delays (evs : list event) : list Z :=
  match evs with
  | [] => []
  | EvDelay ms :: tl => ms :: delays tl
  | _ :: tl => delays tl
  end.

(** The levels driven on pin PB0: bit [PB0] of each write to [PORTB]. *)
Definition pin_levels (evs : list event) : list bool :=
  map (fun w => Z.testbit w PB0) (writes_to PORTB evs).

(** A sample state: arbitrary register contents, a running clock and a
    non-empty history. *)
Definition sample_mcu : mcu :=
  {| regs := fun r => match r with DDRB => 0xA4 | PORTB => 0x5B end;
     clock_ms := 17;
     trace := [EvDelay 3] |}.

(** A second machine with the registers of [sample_mcu] but another clock
    and another history. *)
Definition sample_mcu' : mcu :=
  {| regs := fun r => match r with DDRB => 0xA4 | PORTB => 0x5B end;
     clock_ms := 40000;
     trace := [] |}.

(** The byte [R |= (1 << PB0)] stores over [v], and the byte
    [R &= ~(1 << PB0)] stores over [v]. *)
Definition stored_set (v : Z) : Z := to_uint8 (Z.lor v (Z.shiftl 1 PB0)).
Definition stored_clear (v : Z) : Z :=
  to_uint8 (Z.land v (Z.lnot (Z.shiftl 1 PB0))).

(** ** Call sequences

    blink.c exports two entry points and nothing orders the calls a program
    makes into it: a call sequence is any list of the two. *)
Inductive call : Type :=
| CallInit     (* blink_led_init() *)
| CallBlink.   (* blink_led() *)

Definition run_call (c : call) : M unit :=
  match c with
  | CallInit => blink_led_init
  | CallBlink => blink_led
  end.

Fixpoint run_calls (cs : list call) : M unit :=
  match cs with
  | [] => ret tt
  | c :: tl => run_call c ;; run_calls tl
  end.

Definition is_init (c : call) : bool :=
  match c with CallInit => true | CallBlink => false end.

Definition is_blink (c : call) : bool :=
  match c with CallInit => false | CallBlink => true end.

Fixpoint count_blinks (cs : list call) : nat :=
  match cs with
  | [] => O
  | c :: tl => if is_blink c then S (count_blinks tl) else count_blinks tl
  end.

(** The level of bit [PB0] of PORTB after the events [evs], when it was
    [lvl] before them. *)
Fixpoint level_after (lvl : bool) (evs : list event) : bool :=
  match evs with
  | [] => lvl
  | EvWrite PORTB v :: tl => level_after (Z.testbit v PB0) tl
  | _ :: tl => level_after lvl tl
  end.

(** The level bit [PB0] of PORTB holds during each delay of [evs], with the
    duration of that delay, when the level was [lvl] before the events. *)
Fixpoint holds (lvl : bool) (evs : list event) : list (bool * Z) :=
  match evs with
  | [] => []
  | EvWrite PORTB v :: tl => holds (Z.testbit v PB0) tl
  | EvDelay ms :: tl => (lvl, ms) :: holds lvl tl
  | _ :: tl => holds lvl tl
  end.

(** Total time spent at level [lvl]. *)
Fixpoint time_at (lvl : bool) (hs : list (bool * Z)) : Z :=
  match hs with
  | [] => 0
  | (l, ms) :: tl => (if Bool.eqb l lvl then ms else 0) + time_at lvl tl
  end.

(** Two bytes that agree on every bit but bit [PB0]. *)
Definition agree_off_pin (v w : Z) : Prop :=
  forall i, i <> PB0 -> Z.testbit w i = Z.testbit v i.

(** Every register holds a byte. *)
Definition all_bytes (s : mcu) : Prop := forall r, 0 <= regs s r < 256.

(** A sample call sequence: blinking before and after the initialisation. *)
Definition sample_calls : list call := [CallBlink; CallInit; CallBlink].

(** * Byte-level facts about the two read-modify-write operations *)

Module Bits.

Lemma testbit_to_uint8 (v i : Z) :
  Z.testbit (to_uint8 v) i = (i <? 8) && Z.testbit v i.
Proof.
  unfold to_uint8. change 256 with (2 ^ 8).
  apply Z.testbit_mod_pow2. lia.
Qed.

Lemma to_uint8_range (v : Z) : 0 <= to_uint8 v < 256.
Proof. unfold to_uint8. apply Z.mod_pos_bound. lia. Qed.

Lemma to_uint8_small (v : Z) : 0 <= v < 256 -> to_uint8 v = v.
Proof. intros H. unfold to_uint8. apply Z.mod_small. exact H. Qed.

(** A byte has no bit at or above position 8, and none below position 0. *)
Lemma testbit_uint8 (v i : Z) :
  0 <= v < 256 -> Z.testbit v i = (i <? 8) && Z.testbit v i.
Proof.
  intros H. rewrite <- (to_uint8_small v H) at 1. apply testbit_to_uint8.
Qed.

Lemma testbit_mask (b i : Z) :
  0 <= b -> Z.testbit (Z.shiftl 1 b) i = (b =? i).
Proof.
  intros H. rewrite Z.shiftl_1_l. apply Z.pow2_bits_eqb. exact H.
Qed.

(** Bits of the byte stored by [R |= (1 << b)]. *)
Lemma testbit_set (v b i : Z) :
  0 <= b ->
  Z.testbit (to_uint8 (Z.lor v (Z.shiftl 1 b))) i
  = (i <? 8) && (Z.testbit v i || (b =? i)).
Proof.
  intros H. rewrite testbit_to_uint8, Z.lor_spec, testbit_mask by exact H.
  reflexivity.
Qed.

(** Bits of the byte stored by [R &= ~(1 << b)]. *)
Lemma testbit_clear (v b i : Z) :
  0 <= b ->
  Z.testbit (to_uint8 (Z.land v (Z.lnot (Z.shiftl 1 b)))) i
  = (i <? 8) && (Z.testbit v i && negb (b =? i)).
Proof.
  intros H. rewrite testbit_to_uint8, Z.land_spec.
  destruct (Z.ltb_spec i 0) as [Hneg | Hpos].
  - rewrite !(Z.testbit_neg_r _ i Hneg). simpl. now rewrite andb_false_r.
  - rewrite Z.lnot_spec, testbit_mask by assumption. reflexivity.
Qed.

(** On a byte the conversion back to [uint8_t] loses nothing. *)
Lemma set_small (v b : Z) :
  0 <= v < 256 -> 0 <= b < 8 ->
  to_uint8 (Z.lor v (Z.shiftl 1 b)) = Z.lor v (Z.shiftl 1 b).
Proof.
  intros Hv Hb. apply Z.bits_inj'. intros i Hi.
  rewrite testbit_set by lia.
  rewrite Z.lor_spec, testbit_mask by lia.
  rewrite (testbit_uint8 v i Hv).
  destruct (Z.ltb_spec i 8) as [Hlt | Hge]; simpl; [reflexivity|].
  symmetry. apply Z.eqb_neq. lia.
Qed.

Lemma clear_small (v b : Z) :
  0 <= v < 256 -> 0 <= b ->
  to_uint8 (Z.land v (Z.lnot (Z.shiftl 1 b)))
  = Z.land v (Z.lnot (Z.shiftl 1 b)).
Proof.
  intros Hv Hb. apply Z.bits_inj'. intros i Hi.
  rewrite testbit_clear by lia.
  rewrite Z.land_spec, Z.lnot_spec, testbit_mask by lia.
  rewrite (testbit_uint8 v i Hv).
  destruct (i <? 8); reflexivity.
Qed.

(** Setting a bit that the byte already has set changes nothing. *)
Lemma set_set (v b : Z) :
  0 <= b ->
  to_uint8 (Z.lor (to_uint8 (Z.lor v (Z.shiftl 1 b))) (Z.shiftl 1 b))
  = to_uint8 (Z.lor v (Z.shiftl 1 b)).
Proof.
  intros Hb. apply Z.bits_inj'. intros i Hi.
  rewrite !testbit_set by exact Hb.
  destruct (i <? 8), (Z.testbit v i), (b =? i); reflexivity.
Qed.

(** Clearing a bit right after setting it is clearing it. *)
Lemma clear_set (v b : Z) :
  0 <= b ->
  to_uint8 (Z.land (to_uint8 (Z.lor v (Z.shiftl 1 b))) (Z.lnot (Z.shiftl 1 b)))
  = to_uint8 (Z.land v (Z.lnot (Z.shiftl 1 b))).
Proof.
  intros Hb. apply Z.bits_inj'. intros i Hi.
  rewrite !testbit_clear, testbit_set by exact Hb.
  destruct (i <? 8), (Z.testbit v i), (b =? i); reflexivity.
Qed.

(** Clearing a bit twice is clearing it once. *)
Lemma clear_clear (v b : Z) :
  0 <= b ->
  to_uint8 (Z.land (to_uint8 (Z.land v (Z.lnot (Z.shiftl 1 b))))
                   (Z.lnot (Z.shiftl 1 b)))
  = to_uint8 (Z.land v (Z.lnot (Z.shiftl 1 b))).
Proof.
  intros Hb. apply Z.bits_inj'. intros i Hi.
  rewrite !testbit_clear by exact Hb.
  destruct (i <? 8), (Z.testbit v i), (b =? i); reflexivity.
Qed.

End Bits.

(** * Running the two functions *)

Lemma exec_seq {A : Type} (m : M A) (k : M unit) (s : mcu) :
  exec (m ;; k) s = exec k (exec m s).
Proof. unfold exec, bind. destruct (m s) as [a s']. reflexivity. Qed.

Lemma emitted_app (s s' : mcu) (evs : list event) :
  trace s' = trace s ++ evs -> emitted s s' = evs.
Proof.
  intros H. unfold emitted. rewrite H. clear H.
  induction (trace s) as [| e t IH]; [reflexivity | exact IH].
Qed.

Lemma writes_to_app (r : ioreg) (a b : list event) :
  writes_to r (a ++ b) = writes_to r a ++ writes_to r b.
Proof.
  induction a as [| e a IH]; [reflexivity|].
  destruct e as [r' v | r' v | ms]; simpl; try exact IH.
  destruct (ioreg_eqb r r'); simpl; now rewrite IH.
Qed.

Lemma pin_levels_app (a b : list event) :
  pin_levels (a ++ b) = pin_levels a ++ pin_levels b.
Proof. unfold pin_levels. now rewrite writes_to_app, map_app. Qed.

Section Init.

Variable s : mcu.

Lemma regs_init (r : ioreg) :
  regs (exec blink_led_init s) r
  = upd (regs s) DDRB (stored_set (regs s DDRB)) r.
Proof. reflexivity. Qed.

Lemma trace_init :
  trace (exec blink_led_init s)
  = trace s ++ [EvRead DDRB (regs s DDRB);
                EvWrite DDRB (stored_set (regs s DDRB))].
Proof.
  change (trace (exec blink_led_init s))
    with ((trace s ++ [EvRead DDRB (regs s DDRB)])
            ++ [EvWrite DDRB (stored_set (regs s DDRB))]).
  now rewrite <- app_assoc.
Qed.

Lemma emitted_init :
  emitted s (exec blink_led_init s)
  = [EvRead DDRB (regs s DDRB); EvWrite DDRB (stored_set (regs s DDRB))].
Proof. apply emitted_app, trace_init. Qed.

End Init.

Section Blink.

Variable s : mcu.

Lemma regs_blink (r : ioreg) :
  regs (exec blink_led s) r
  = upd (upd (regs s) PORTB (stored_set (regs s PORTB)))
        PORTB (stored_clear (stored_set (regs s PORTB))) r.
Proof. reflexivity. Qed.

Lemma clock_blink : clock_ms (exec blink_led s) = clock_ms s + 1000 + 1000.
Proof. reflexivity. Qed.

Lemma trace_blink :
  trace (exec blink_led s)
  = trace s ++ [EvRead PORTB (regs s PORTB);
                EvWrite PORTB (stored_set (regs s PORTB));
                EvDelay 1000;
                EvRead PORTB (stored_set (regs s PORTB));
                EvWrite PORTB (stored_clear (stored_set (regs s PORTB)));
                EvDelay 1000].
Proof.
  change (trace (exec blink_led s))
    with ((((((trace s ++ [EvRead PORTB (regs s PORTB)])
                ++ [EvWrite PORTB (stored_set (regs s PORTB))])
               ++ [EvDelay 1000])
              ++ [EvRead PORTB (stored_set (regs s PORTB))])
             ++ [EvWrite PORTB (stored_clear (stored_set (regs s PORTB)))])
            ++ [EvDelay 1000]).
  now rewrite <- !app_assoc.
Qed.

Lemma emitted_blink :
  emitted s (exec blink_led s)
  = [EvRead PORTB (regs s PORTB);
     EvWrite PORTB (stored_set (regs s PORTB));
     EvDelay 1000;
     EvRead PORTB (stored_set (regs s PORTB));
     EvWrite PORTB (stored_clear (stored_set (regs s PORTB)));
     EvDelay 1000].
Proof. apply emitted_app, trace_blink. Qed.

Lemma portb_blink :
  regs (exec blink_led s) PORTB = stored_clear (regs s PORTB).
Proof.
  rewrite regs_blink. cbv [upd ioreg_eqb].
  apply Bits.clear_set. unfold PB0. lia.
Qed.

End Blink.

Lemma PB0_bounds : 0 <= PB0 < 8.
Proof. unfold PB0. lia. Qed.

Lemma stored_set_bit (v i : Z) :
  Z.testbit (stored_set v) i = (i <? 8) && (Z.testbit v i || (PB0 =? i)).
Proof. apply Bits.testbit_set, PB0_bounds. Qed.

Lemma stored_clear_bit (v i : Z) :
  Z.testbit (stored_clear v) i = (i <? 8) && (Z.testbit v i && negb (PB0 =? i)).
Proof. apply Bits.testbit_clear, PB0_bounds. Qed.

Lemma stored_set_PB0 (v : Z) : Z.testbit (stored_set v) PB0 = true.
Proof. rewrite stored_set_bit, Z.eqb_refl. apply orb_true_r. Qed.

Lemma stored_clear_PB0 (v : Z) : Z.testbit (stored_clear v) PB0 = false.
Proof.
  rewrite stored_clear_bit, Z.eqb_refl. simpl. now rewrite !andb_false_r.
Qed.

(** Away from bit [PB0] a byte and what is stored over it agree. *)
Lemma stored_set_other (v i : Z) :
  0 <= v < 256 -> i <> PB0 -> Z.testbit (stored_set v) i = Z.testbit v i.
Proof.
  intros Hv Hi. rewrite stored_set_bit, (Bits.testbit_uint8 v i Hv).
  replace (PB0 =? i) with false by (symmetry; apply Z.eqb_neq; congruence).
  destruct (i <? 8), (Z.testbit v i); reflexivity.
Qed.

Lemma stored_clear_other (v i : Z) :
  0 <= v < 256 -> i <> PB0 -> Z.testbit (stored_clear v) i = Z.testbit v i.
Proof.
  intros Hv Hi. rewrite stored_clear_bit, (Bits.testbit_uint8 v i Hv).
  replace (PB0 =? i) with false by (symmetry; apply Z.eqb_neq; congruence).
  destruct (i <? 8), (Z.testbit v i); reflexivity.
Qed.

(** A function whose second call in a row leaves the registers as the first
    did leaves them so after any number of calls. *)
Lemma call_times_stable (f : M unit) :
  (forall s r, regs (exec f (exec f s)) r = regs (exec f s) r) ->
  forall n s r, regs (exec (call_times (S n) f) s) r = regs (exec f s) r.
Proof.
  intros Hf n. induction n as [| n IH]; intros s r.
  - simpl. now rewrite exec_seq.
  - change (call_times (S (S n)) f) with (f ;; call_times (S n) f).
    rewrite exec_seq, IH. apply Hf.
Qed.

Lemma init_twice (s : mcu) (r : ioreg) :
  regs (exec blink_led_init (exec blink_led_init s)) r
  = regs (exec blink_led_init s) r.
Proof.
  rewrite (regs_init (exec blink_led_init s)), !regs_init.
  destruct r; cbv [upd ioreg_eqb]; [|reflexivity].
  apply Bits.set_set, PB0_bounds.
Qed.

Lemma blink_twice (s : mcu) (r : ioreg) :
  regs (exec blink_led (exec blink_led s)) r = regs (exec blink_led s) r.
Proof.
  destruct r.
  - reflexivity.
  - rewrite !portb_blink. apply Bits.clear_clear, PB0_bounds.
Qed.

(** * Sanity checks on a concrete machine *)

Example init_on_sample :
  regs (exec blink_led_init sample_mcu) DDRB = 0xA5
  /\ regs (exec blink_led_init sample_mcu) PORTB = 0x5B.
Proof. split; reflexivity. Qed.

Example blink_on_sample :
  emitted sample_mcu (exec blink_led sample_mcu)
  = [EvRead PORTB 0x5B; EvWrite PORTB 0x5B; EvDelay 1000;
     EvRead PORTB 0x5B; EvWrite PORTB 0x5A; EvDelay 1000]
  /\ clock_ms (exec blink_led sample_mcu) = 2017.
Proof. split; reflexivity. Qed.

Example three_blinks_on_sample :
  pin_levels
    (emitted sample_mcu
       (exec (blink_led_init ;; call_times 3 blink_led) sample_mcu))
  = [true; false; true; false; true; false].
Proof. reflexivity. Qed.

(** * The properties of blink.c *)

(** C1. From any byte in the output register, one call of [blink_led]
    performs exactly this sequence: it reads PORTB and writes it back with
    bit PB0 or-ed in (the bit is then high), delays 1000 ms, reads PORTB and
    writes it back and-ed with the complement of the bit (the bit is then
    low), and delays 1000 ms.  The high write comes before the low one. *)
Theorem blink_led_sequence (s : mcu) :
  0 <= regs s PORTB < 256 ->
  emitted s (exec blink_led s)
  = [EvRead PORTB (regs s PORTB);
     EvWrite PORTB (Z.lor (regs s PORTB) (Z.shiftl 1 PB0));
     EvDelay 1000;
     EvRead PORTB (Z.lor (regs s PORTB) (Z.shiftl 1 PB0));
     EvWrite PORTB (Z.land (Z.lor (regs s PORTB) (Z.shiftl 1 PB0))
                           (Z.lnot (Z.shiftl 1 PB0)));
     EvDelay 1000]
  /\ Z.testbit (Z.lor (regs s PORTB) (Z.shiftl 1 PB0)) PB0 = true
  /\ Z.testbit (Z.land (Z.lor (regs s PORTB) (Z.shiftl 1 PB0))
                       (Z.lnot (Z.shiftl 1 PB0))) PB0 = false.
Proof.
  intros Hv.
  assert (Hset : stored_set (regs s PORTB)
                 = Z.lor (regs s PORTB) (Z.shiftl 1 PB0))
    by (apply Bits.set_small; [exact Hv | exact PB0_bounds]).
  assert (Hclr : stored_clear (stored_set (regs s PORTB))
                 = Z.land (Z.lor (regs s PORTB) (Z.shiftl 1 PB0))
                          (Z.lnot (Z.shiftl 1 PB0))).
  { rewrite <- Hset. apply Bits.clear_small;
      [apply Bits.to_uint8_range | apply PB0_bounds]. }
  rewrite emitted_blink, Hclr, Hset. split; [reflexivity|].
  rewrite <- Hclr, <- Hset.
  split; [apply stored_set_PB0 | apply stored_clear_PB0].
Qed.

Lemma blink_led_sequence_witness :
  0 <= regs sample_mcu PORTB < 256
  /\ emitted sample_mcu (exec blink_led sample_mcu)
     = [EvRead PORTB 0x5B; EvWrite PORTB 0x5B; EvDelay 1000;
        EvRead PORTB 0x5B; EvWrite PORTB 0x5A; EvDelay 1000].
Proof.
  split; [simpl; lia|].
  apply (blink_led_sequence sample_mcu). simpl. lia.
Defined.

(** C2. From any byte in the direction register, [blink_led_init] stores
    the old value or-ed with [1 << 0]: bit 0 becomes 1 and every other bit
    keeps the value it had before the call. *)
Theorem blink_led_init_sets_bit0 (s : mcu) :
  0 <= regs s DDRB < 256 ->
  regs (exec blink_led_init s) DDRB = Z.lor (regs s DDRB) (Z.shiftl 1 0)
  /\ Z.testbit (regs (exec blink_led_init s) DDRB) 0 = true
  /\ (forall i, i <> 0 ->
        Z.testbit (regs (exec blink_led_init s) DDRB) i
        = Z.testbit (regs s DDRB) i).
Proof.
  intros Hv. rewrite regs_init. cbv [upd ioreg_eqb]. repeat split.
  - apply (Bits.set_small _ PB0 Hv PB0_bounds).
  - apply stored_set_PB0.
  - intros i Hi. apply stored_set_other; assumption.
Qed.

Lemma blink_led_init_sets_bit0_witness :
  0 <= regs sample_mcu DDRB < 256
  /\ regs (exec blink_led_init sample_mcu) DDRB = Z.lor 0xA4 (Z.shiftl 1 0).
Proof.
  split; [simpl; lia|].
  apply (blink_led_init_sets_bit0 sample_mcu). simpl. lia.
Defined.

(** C3. From any byte in the output register, one call of [blink_led]
    writes PORTB exactly twice, and after each of the two writes, and so at
    the end of the call, every bit of PORTB other than bit PB0 holds the
    value it had before the call. *)
Theorem blink_led_other_bits_unchanged (s : mcu) :
  0 <= regs s PORTB < 256 ->
  length (writes_to PORTB (emitted s (exec blink_led s))) = 2%nat
  /\ Forall (fun w => forall i, i <> PB0 ->
                        Z.testbit w i = Z.testbit (regs s PORTB) i)
            (writes_to PORTB (emitted s (exec blink_led s)))
  /\ (forall i, i <> PB0 ->
        Z.testbit (regs (exec blink_led s) PORTB) i
        = Z.testbit (regs s PORTB) i).
Proof.
  intros Hv. rewrite emitted_blink. simpl writes_to.
  assert (Hlo : forall i, i <> PB0 ->
            Z.testbit (stored_clear (stored_set (regs s PORTB))) i
            = Z.testbit (regs s PORTB) i).
  { intros i Hi. rewrite stored_clear_other;
      [now apply stored_set_other | apply Bits.to_uint8_range | exact Hi]. }
  split; [reflexivity|]. split.
  - repeat constructor; [|exact Hlo].
    intros i Hi. now apply stored_set_other.
  - exact Hlo.
Qed.

Lemma blink_led_other_bits_unchanged_witness :
  0 <= regs sample_mcu PORTB < 256
  /\ Forall (fun w => forall i, i <> PB0 -> Z.testbit w i = Z.testbit 0x5B i)
            (writes_to PORTB (emitted sample_mcu (exec blink_led sample_mcu))).
Proof.
  split; [simpl; lia|].
  apply (blink_led_other_bits_unchanged sample_mcu). simpl. lia.
Defined.

(** C4. [blink_led_init] is idempotent: from any state, any number of calls
    in a row, at least one, leaves the direction register (and the rest of
    the register file) exactly as a single call leaves it. *)
Theorem blink_led_init_idempotent (n : nat) (s : mcu) :
  (1 <= n)%nat ->
  regs (exec (call_times n blink_led_init) s) DDRB
  = regs (exec blink_led_init s) DDRB
  /\ regs (exec (call_times n blink_led_init) s) PORTB
     = regs (exec blink_led_init s) PORTB.
Proof.
  intros Hn. destruct n as [| n]; [inversion Hn|].
  split; apply call_times_stable; exact init_twice.
Qed.

Lemma blink_led_init_idempotent_witness :
  (1 <= 4)%nat
  /\ regs (exec (call_times 4 blink_led_init) sample_mcu) DDRB
     = regs (exec blink_led_init sample_mcu) DDRB.
Proof.
  split; [lia|].
  apply (blink_led_init_idempotent 4 sample_mcu). lia.
Defined.

(** C5. One call of [blink_led] requests exactly two delays, each of 1000
    milliseconds; the clock advances by 2000 ms over the call, and all of
    that advance is the two delays: nothing else in the call blocks, and a
    delay that has begun runs for its whole duration. *)
Theorem blink_led_delays (s : mcu) :
  delays (emitted s (exec blink_led s)) = [1000; 1000]
  /\ clock_ms (exec blink_led s) = clock_ms s + 2000
  /\ clock_ms (exec blink_led s) - clock_ms s
     = fold_right Z.add 0 (delays (emitted s (exec blink_led s))).
Proof.
  rewrite emitted_blink, clock_blink. simpl. repeat split; lia.
Qed.

(** One call leaves in the trace what [blink_led] emits from the value it
    finds in PORTB; the levels it drives on the pin are high, then low. *)
Lemma pin_levels_blink (s : mcu) :
  pin_levels (emitted s (exec blink_led s)) = [true; false].
Proof.
  rewrite emitted_blink.
  change (pin_levels _)
    with [Z.testbit (stored_set (regs s PORTB)) PB0;
          Z.testbit (stored_clear (stored_set (regs s PORTB))) PB0].
  now rewrite stored_set_PB0, stored_clear_PB0.
Qed.

Lemma trace_extends_blink (s : mcu) :
  trace (exec blink_led s) = trace s ++ emitted s (exec blink_led s).
Proof. rewrite emitted_blink. apply trace_blink. Qed.

Lemma call_times_blink_levels (n : nat) :
  forall s, exists evs,
    trace (exec (call_times n blink_led) s) = trace s ++ evs
    /\ pin_levels evs = concat (repeat [true; false] n).
Proof.
  induction n as [| n IH]; intros s.
  - exists []. split; [symmetry; apply app_nil_r | reflexivity].
  - change (call_times (S n) blink_led)
      with (blink_led ;; call_times n blink_led).
    rewrite exec_seq.
    destruct (IH (exec blink_led s)) as [evs [Htr Hlv]].
    exists (emitted s (exec blink_led s) ++ evs). split.
    + rewrite Htr, trace_extends_blink. symmetry. apply app_assoc.
    + rewrite pin_levels_app, pin_levels_blink, Hlv. reflexivity.
Qed.

(** C6. For every N and every initial state, [blink_led_init] followed by N
    calls of [blink_led] drives exactly N complete pulses on the pin: the
    bit-0 levels of the writes to PORTB are N repetitions of (1, then 0). *)
Theorem init_then_blinks_pulses (N : nat) (s : mcu) :
  pin_levels
    (emitted s (exec (blink_led_init ;; call_times N blink_led) s))
  = concat (repeat [true; false] N).
Proof.
  rewrite exec_seq.
  destruct (call_times_blink_levels N (exec blink_led_init s))
    as [evs [Htr Hlv]].
  rewrite trace_init, <- app_assoc in Htr.
  rewrite (emitted_app _ _ _ Htr), pin_levels_app, Hlv. reflexivity.
Qed.

(** C7. The only effect of [blink_led_init] is its one write to DDRB (made
    after reading DDRB): it writes no other register, requests no delay, and
    leaves PORTB and the clock as they were. *)
Theorem blink_led_init_frame (s : mcu) :
  emitted s (exec blink_led_init s)
  = [EvRead DDRB (regs s DDRB);
     EvWrite DDRB (regs (exec blink_led_init s) DDRB)]
  /\ writes (emitted s (exec blink_led_init s))
     = [(DDRB, regs (exec blink_led_init s) DDRB)]
  /\ delays (emitted s (exec blink_led_init s)) = []
  /\ regs (exec blink_led_init s) PORTB = regs s PORTB
  /\ clock_ms (exec blink_led_init s) = clock_ms s.
Proof.
  rewrite emitted_init. repeat split; reflexivity.
Qed.

(** C8. [blink_led] never touches the direction register: it makes no write
    to DDRB, and DDRB holds after the call the value it held before. *)
Theorem blink_led_keeps_ddrb (s : mcu) :
  regs (exec blink_led s) DDRB = regs s DDRB
  /\ writes_to DDRB (emitted s (exec blink_led s)) = [].
Proof.
  rewrite emitted_blink. split; reflexivity.
Qed.

(** C9. From any byte in the output register, PORTB after one call of
    [blink_led] is the initial value and-ed with the complement of [1 << 0],
    so bit 0 ends 0 whatever it was; and any number of calls in a row, at
    least one, leaves PORTB as a single call leaves it. *)
Theorem blink_led_final_portb (n : nat) (s : mcu) :
  0 <= regs s PORTB < 256 ->
  (1 <= n)%nat ->
  regs (exec blink_led s) PORTB
  = Z.land (regs s PORTB) (Z.lnot (Z.shiftl 1 0))
  /\ Z.testbit (regs (exec blink_led s) PORTB) 0 = false
  /\ regs (exec (call_times n blink_led) s) PORTB
     = regs (exec blink_led s) PORTB.
Proof.
  intros Hv Hn. rewrite portb_blink. repeat split.
  - apply (Bits.clear_small _ PB0 Hv). apply PB0_bounds.
  - apply stored_clear_PB0.
  - destruct n as [| n]; [inversion Hn|].
    rewrite <- portb_blink. apply call_times_stable. exact blink_twice.
Qed.

Lemma blink_led_final_portb_witness :
  0 <= regs sample_mcu PORTB < 256
  /\ (1 <= 3)%nat
  /\ regs (exec blink_led sample_mcu) PORTB = 0x5A
  /\ regs (exec (call_times 3 blink_led) sample_mcu) PORTB = 0x5A.
Proof.
  split; [simpl; lia|]. split; [lia|].
  destruct (blink_led_final_portb 3 sample_mcu) as [H1 [_ H3]];
    [simpl; lia | lia |].
  split; [exact H1 | exact H3].
Defined.

(** C10. Both functions are deterministic in the registers: two runs of
    [blink_led_init], or of [blink_led], from states whose registers agree
    end in states whose registers agree, and emit the same events, hence
    the same writes. *)
Theorem blink_deterministic (s1 s2 : mcu) :
  (forall r, regs s1 r = regs s2 r) ->
  ((forall r, regs (exec blink_led_init s1) r
              = regs (exec blink_led_init s2) r)
   /\ emitted s1 (exec blink_led_init s1)
      = emitted s2 (exec blink_led_init s2)
   /\ writes (emitted s1 (exec blink_led_init s1))
      = writes (emitted s2 (exec blink_led_init s2)))
  /\ ((forall r, regs (exec blink_led s1) r = regs (exec blink_led s2) r)
      /\ emitted s1 (exec blink_led s1) = emitted s2 (exec blink_led s2)
      /\ writes (emitted s1 (exec blink_led s1))
         = writes (emitted s2 (exec blink_led s2))).
Proof.
  intros Heq.
  assert (Hi : emitted s1 (exec blink_led_init s1)
               = emitted s2 (exec blink_led_init s2))
    by (rewrite !emitted_init; now rewrite Heq).
  assert (Hb : emitted s1 (exec blink_led s1)
               = emitted s2 (exec blink_led s2))
    by (rewrite !emitted_blink; now rewrite Heq).
  repeat split.
  - intros r. rewrite !regs_init. cbv [upd]. now rewrite !Heq.
  - exact Hi.
  - now rewrite Hi.
  - intros r. rewrite !regs_blink. cbv [upd]. now rewrite !Heq.
  - exact Hb.
  - now rewrite Hb.
Qed.

Lemma blink_deterministic_witness :
  (forall r, regs sample_mcu r = regs sample_mcu' r)
  /\ writes (emitted sample_mcu (exec blink_led sample_mcu))
     = writes (emitted sample_mcu' (exec blink_led sample_mcu')).
Proof.
  split; [intros r; reflexivity|].
  apply (blink_deterministic sample_mcu sample_mcu').
  intros r. reflexivity.
Defined.

(** * Call sequences: how the two functions compose *)

Lemma exec_calls_cons (c : call) (tl : list call) (s : mcu) :
  exec (run_calls (c :: tl)) s = exec (run_calls tl) (exec (run_call c) s).
Proof. apply exec_seq. Qed.

Lemma trace_extends_call (c : call) (s : mcu) :
  trace (exec (run_call c) s) = trace s ++ emitted s (exec (run_call c) s).
Proof.
  destruct c.
  - simpl run_call. rewrite emitted_init. apply trace_init.
  - apply trace_extends_blink.
Qed.

(** The trace only grows, by what the calls emit. *)
Lemma trace_extends_calls (cs : list call) :
  forall s,
    trace (exec (run_calls cs) s)
    = trace s ++ emitted s (exec (run_calls cs) s).
Proof.
  induction cs as [| c tl IH]; intros s.
  - change (exec (run_calls []) s) with s.
    rewrite (emitted_app s s []); symmetry; apply app_nil_r.
  - rewrite exec_calls_cons.
    assert (H : trace (exec (run_calls tl) (exec (run_call c) s))
                = trace s
                  ++ (emitted s (exec (run_call c) s)
                      ++ emitted (exec (run_call c) s)
                           (exec (run_calls tl) (exec (run_call c) s)))).
    { rewrite IH at 1. rewrite trace_extends_call at 1. 
      symmetry. apply app_assoc. }
    rewrite (emitted_app _ _ _ H). exact H.
Qed.

Lemma emitted_calls_cons (c : call) (tl : list call) (s : mcu) :
  emitted s (exec (run_calls (c :: tl)) s)
  = emitted s (exec (run_call c) s)
    ++ emitted (exec (run_call c) s)
         (exec (run_calls tl) (exec (run_call c) s)).
Proof.
  apply emitted_app. rewrite exec_calls_cons.
  rewrite trace_extends_calls, trace_extends_call at 1.
  symmetry. apply app_assoc.
Qed.

Lemma emitted_calls_nil (s : mcu) : emitted s (exec (run_calls []) s) = [].
Proof. apply emitted_app. symmetry. apply app_nil_r. Qed.

(** [call_times] is the call sequence that repeats one call. *)
Lemma run_calls_repeat (n : nat) (s : mcu) :
  exec (run_calls (repeat CallBlink n)) s = exec (call_times n blink_led) s.
Proof.
  revert s. induction n as [| n IH]; intros s; [reflexivity|].
  change (repeat CallBlink (S n)) with (CallBlink :: repeat CallBlink n).
  change (call_times (S n) blink_led)
    with (blink_led ;; call_times n blink_led).
  rewrite exec_calls_cons, exec_seq. apply IH.
Qed.

(** The registers after any call sequence, in terms of the stored bytes. *)
Lemma regs_calls (cs : list call) :
  forall s,
    regs (exec (run_calls cs) s) DDRB
    = (if existsb is_init cs then stored_set (regs s DDRB)
       else regs s DDRB)
    /\ regs (exec (run_calls cs) s) PORTB
       = (if existsb is_blink cs then stored_clear (regs s PORTB)
          else regs s PORTB).
Proof.
  induction cs as [| c tl IH]; intros s; [split; reflexivity|].
  rewrite exec_calls_cons.
  destruct (IH (exec (run_call c) s)) as [Hd Hp]. rewrite Hd, Hp.
  destruct c; simpl run_call; simpl existsb.
  - rewrite !regs_init. cbv [upd ioreg_eqb]. split; [|reflexivity].
    destruct (existsb is_init tl); [|reflexivity].
    apply Bits.set_set, PB0_bounds.
  - rewrite portb_blink. split; [reflexivity|].
    destruct (existsb is_blink tl); [|reflexivity].
    apply Bits.clear_clear, PB0_bounds.
Qed.

Lemma clock_calls (cs : list call) :
  forall s,
    clock_ms (exec (run_calls cs) s)
    = clock_ms s + 2000 * Z.of_nat (count_blinks cs).
Proof.
  induction cs as [| c tl IH]; intros s.
  - change (exec (run_calls []) s) with s. simpl. lia.
  - rewrite exec_calls_cons, IH. destruct c; simpl run_call.
    + change (clock_ms (exec blink_led_init s)) with (clock_ms s).
      reflexivity.
    + rewrite clock_blink. simpl count_blinks. lia.
Qed.

Lemma existsb_perm (f : call -> bool) (cs cs' : list call) :
  Permutation cs cs' -> existsb f cs = existsb f cs'.
Proof.
  induction 1 as [| c l l' _ IH | c d l | l l' l'' _ IH1 _ IH2]; simpl.
  - reflexivity.
  - now rewrite IH.
  - destruct (f c), (f d); reflexivity.
  - now rewrite IH1.
Qed.

Lemma count_blinks_perm (cs cs' : list call) :
  Permutation cs cs' -> count_blinks cs = count_blinks cs'.
Proof.
  induction 1 as [| c l l' _ IH | c d l | l l' l'' _ IH1 _ IH2]; simpl.
  - reflexivity.
  - now rewrite IH.
  - destruct (is_blink c), (is_blink d); reflexivity.
  - now rewrite IH1.
Qed.

Lemma delays_app (a b : list event) : delays (a ++ b) = delays a ++ delays b.
Proof.
  induction a as [| e a IH]; [reflexivity|].
  destruct e as [r v | r v | ms]; simpl; now rewrite IH.
Qed.

Lemma writes_app (a b : list event) : writes (a ++ b) = writes a ++ writes b.
Proof.
  induction a as [| e a IH]; [reflexivity|].
  destruct e as [r v | r v | ms]; simpl; now rewrite IH.
Qed.

Lemma holds_app (a b : list event) :
  forall lvl, holds lvl (a ++ b) = holds lvl a ++ holds (level_after lvl a) b.
Proof.
  induction a as [| e a IH]; intros lvl; [reflexivity|].
  destruct e as [r v | [|] v | ms]; simpl; now rewrite IH.
Qed.

Lemma time_at_app (lvl : bool) (a b : list (bool * Z)) :
  time_at lvl (a ++ b) = time_at lvl a + time_at lvl b.
Proof.
  induction a as [| [l ms] a IH]; [reflexivity|].
  simpl. rewrite IH. lia.
Qed.

Lemma time_at_pulses (n : nat) :
  time_at true (concat (repeat [(true, 1000); (false, 1000)] n))
  = 1000 * Z.of_nat n
  /\ time_at false (concat (repeat [(true, 1000); (false, 1000)] n))
     = 1000 * Z.of_nat n.
Proof.
  induction n as [| n [IHt IHf]]; [split; reflexivity|].
  change (repeat [(true, 1000); (false, 1000)] (S n))
    with ([(true, 1000); (false, 1000)]
            :: repeat [(true, 1000); (false, 1000)] n).
  change (concat (?x :: ?l)) with (x ++ concat l).
  rewrite !time_at_app, IHt, IHf. simpl time_at. split; lia.
Qed.

(** What one blink shows on the pin, whatever the level before it. *)
Lemma holds_blink (s : mcu) (lvl : bool) :
  holds lvl (emitted s (exec blink_led s)) = [(true, 1000); (false, 1000)]
  /\ level_after lvl (emitted s (exec blink_led s)) = false.
Proof.
  rewrite emitted_blink.
  change (holds lvl _)
    with [(Z.testbit (stored_set (regs s PORTB)) PB0, 1000);
          (Z.testbit (stored_clear (stored_set (regs s PORTB))) PB0, 1000)].
  change (level_after lvl _)
    with (Z.testbit (stored_clear (stored_set (regs s PORTB))) PB0).
  now rewrite stored_set_PB0, stored_clear_PB0.
Qed.

Lemma holds_calls (cs : list call) :
  forall s lvl,
    holds lvl (emitted s (exec (run_calls cs) s))
    = concat (repeat [(true, 1000); (false, 1000)] (count_blinks cs)).
Proof.
  induction cs as [| c tl IH]; intros s lvl.
  - now rewrite emitted_calls_nil.
  - rewrite emitted_calls_cons, holds_app, IH. destruct c; simpl run_call.
    + rewrite emitted_init. reflexivity.
    + destruct (holds_blink s lvl) as [Hh _]. rewrite Hh. reflexivity.
Qed.

Lemma agree_off_pin_refl (v : Z) : agree_off_pin v v.
Proof. intros i _. reflexivity. Qed.

Lemma agree_off_pin_trans (u v w : Z) :
  agree_off_pin u v -> agree_off_pin v w -> agree_off_pin u w.
Proof. intros H1 H2 i Hi. rewrite (H2 i Hi). apply H1, Hi. Qed.

Lemma agree_stored_set (v : Z) :
  0 <= v < 256 -> agree_off_pin v (stored_set v).
Proof. intros Hv i Hi. now apply stored_set_other. Qed.

Lemma agree_stored_clear (v : Z) :
  0 <= v < 256 -> agree_off_pin v (stored_clear v).
Proof. intros Hv i Hi. now apply stored_clear_other. Qed.

(** One call keeps every register a byte, and every byte it writes, like
    every register it leaves, agrees with the register's old content away
    from bit [PB0]. *)
Lemma call_frame (c : call) (s : mcu) :
  all_bytes s ->
  all_bytes (exec (run_call c) s)
  /\ (forall r, agree_off_pin (regs s r) (regs (exec (run_call c) s) r))
  /\ Forall (fun w => agree_off_pin (regs s (fst w)) (snd w))
            (writes (emitted s (exec (run_call c) s))).
Proof.
  intros Hs. destruct c; simpl run_call.
  - rewrite emitted_init. simpl writes. split; [|split].
    + intros r. destruct r; [apply Bits.to_uint8_range | apply Hs].
    + intros r.
      destruct r; [apply agree_stored_set, Hs | apply agree_off_pin_refl].
    + repeat constructor. apply agree_stored_set, Hs.
  - rewrite emitted_blink. simpl writes.
    assert (Hlo : agree_off_pin (regs s PORTB)
                    (stored_clear (stored_set (regs s PORTB)))).
    { apply agree_off_pin_trans with (v := stored_set (regs s PORTB)).
      - apply agree_stored_set, Hs.
      - apply agree_stored_clear, Bits.to_uint8_range. }
    split; [|split].
    + intros r. destruct r; [apply Hs | apply Bits.to_uint8_range].
    + intros r. destruct r; [apply agree_off_pin_refl | exact Hlo].
    + repeat constructor; [apply agree_stored_set, Hs | exact Hlo].
Qed.

Lemma calls_frame (cs : list call) :
  forall s,
    all_bytes s ->
    all_bytes (exec (run_calls cs) s)
    /\ Forall (fun w => agree_off_pin (regs s (fst w)) (snd w))
              (writes (emitted s (exec (run_calls cs) s))).
Proof.
  induction cs as [| c tl IH]; intros s Hs.
  - rewrite emitted_calls_nil. split; [exact Hs | constructor].
  - destruct (call_frame c s Hs) as [Hb [Hr Hw]].
    destruct (IH _ Hb) as [Hb' Hw'].
    rewrite emitted_calls_cons, exec_calls_cons, writes_app.
    split; [exact Hb'|]. apply Forall_app. split; [exact Hw|].
    revert Hw'. apply Forall_impl. intros w Hagree.
    apply agree_off_pin_trans with (v := regs (exec (run_call c) s) (fst w));
      [apply Hr | exact Hagree].
Qed.

(** On a byte, setting bit [PB0] stores the byte back exactly when the bit
    was set, and clearing it stores the byte back exactly when it was
    clear. *)
Lemma stored_set_fix (v : Z) :
  0 <= v < 256 -> (stored_set v = v <-> Z.testbit v PB0 = true).
Proof.
  intros Hv. split.
  - intros H. rewrite <- H. apply stored_set_PB0.
  - intros H. apply Z.bits_inj'. intros i Hi.
    destruct (Z.eq_dec i PB0) as [-> | Hne].
    + now rewrite stored_set_PB0.
    + now apply stored_set_other.
Qed.

Lemma stored_clear_fix (v : Z) :
  0 <= v < 256 -> (stored_clear v = v <-> Z.testbit v PB0 = false).
Proof.
  intros Hv. split.
  - intros H. rewrite <- H. apply stored_clear_PB0.
  - intros H. apply Z.bits_inj'. intros i Hi.
    destruct (Z.eq_dec i PB0) as [-> | Hne].
    + now rewrite stored_clear_PB0.
    + now apply stored_clear_other.
Qed.

Lemma delays_calls (cs : list call) :
  forall s,
    delays (emitted s (exec (run_calls cs) s))
    = concat (repeat [1000; 1000] (count_blinks cs)).
Proof.
  induction cs as [| c tl IH]; intros s.
  - now rewrite emitted_calls_nil.
  - rewrite emitted_calls_cons, delays_app, IH. destruct c; simpl run_call.
    + rewrite emitted_init. reflexivity.
    + rewrite emitted_blink. reflexivity.
Qed.


Lemma all_bytes_sample : all_bytes sample_mcu.
Proof. intros r. destruct r; simpl; lia. Defined.

(** X1. From byte-valued registers, the registers after any sequence of
    calls depend only on which functions were called: DDRB is the old byte
    or-ed with [1 << PB0] if [blink_led_init] was called at least once and
    the old byte otherwise; PORTB is the old byte and-ed with
    [~(1 << PB0)] if [blink_led] was called at least once and the old byte
    otherwise. *)
Theorem calls_final_registers (cs : list call) (s : mcu) :
  all_bytes s ->
  regs (exec (run_calls cs) s) DDRB
  = (if existsb is_init cs then Z.lor (regs s DDRB) (Z.shiftl 1 PB0)
     else regs s DDRB)
  /\ regs (exec (run_calls cs) s) PORTB
     = (if existsb is_blink cs
        then Z.land (regs s PORTB) (Z.lnot (Z.shiftl 1 PB0))
        else regs s PORTB).
Proof.
  intros Hs. destruct (regs_calls cs s) as [Hd Hp]. rewrite Hd, Hp.
  unfold stored_set, stored_clear.
  rewrite (Bits.set_small _ PB0 (Hs DDRB) PB0_bounds).
  rewrite (Bits.clear_small _ PB0 (Hs PORTB)) by apply PB0_bounds.
  split; reflexivity.
Qed.

Lemma calls_final_registers_witness :
  all_bytes sample_mcu
  /\ regs (exec (run_calls sample_calls) sample_mcu) DDRB = 0xA5
  /\ regs (exec (run_calls sample_calls) sample_mcu) PORTB = 0x5A.
Proof.
  split; [exact all_bytes_sample|].
  exact (calls_final_registers sample_calls sample_mcu all_bytes_sample).
Defined.

(** X2. The order of the calls does not matter for where the machine ends:
    two call sequences that are permutations of one another leave the same
    registers and the same clock. *)
Theorem calls_order_irrelevant (cs cs' : list call) (s : mcu) :
  Permutation cs cs' ->
  (forall r, regs (exec (run_calls cs) s) r
             = regs (exec (run_calls cs') s) r)
  /\ clock_ms (exec (run_calls cs) s) = clock_ms (exec (run_calls cs') s).
Proof.
  intros Hp. split.
  - destruct (regs_calls cs s) as [Hd Hb].
    destruct (regs_calls cs' s) as [Hd' Hb'].
    intros r. destruct r.
    + now rewrite Hd, Hd', (existsb_perm is_init cs cs' Hp).
    + now rewrite Hb, Hb', (existsb_perm is_blink cs cs' Hp).
  - now rewrite !clock_calls, (count_blinks_perm cs cs' Hp).
Qed.

Lemma calls_order_irrelevant_witness :
  Permutation [CallBlink; CallInit] [CallInit; CallBlink]
  /\ clock_ms (exec (run_calls [CallBlink; CallInit]) sample_mcu)
     = clock_ms (exec (run_calls [CallInit; CallBlink]) sample_mcu).
Proof.
  split; [apply perm_swap|].
  apply (calls_order_irrelevant [CallBlink; CallInit] [CallInit; CallBlink]
           sample_mcu).
  apply perm_swap.
Defined.

(** X3. Any sequence of calls blocks for 2000 ms per call of [blink_led]
    and not at all for a call of [blink_led_init]: with k calls of
    [blink_led] in it, the delays requested are k times (1000, 1000) and
    the clock ends 2000 k ms later. *)
Theorem calls_elapsed_time (cs : list call) (s : mcu) :
  delays (emitted s (exec (run_calls cs) s))
  = concat (repeat [1000; 1000] (count_blinks cs))
  /\ clock_ms (exec (run_calls cs) s)
     = clock_ms s + 2000 * Z.of_nat (count_blinks cs).
Proof. split; [apply delays_calls | apply clock_calls]. Qed.

(** X4. Bit PB0 of PORTB is high during the first delay of every call of
    [blink_led] and low during the second, whatever its level before and
    wherever calls of [blink_led_init] fall in between: over a sequence with
    k calls of [blink_led] the bit is held high for 1000 k ms and low for
    1000 k ms, a duty cycle of one half. *)
Theorem calls_duty_cycle (cs : list call) (s : mcu) (lvl : bool) :
  holds lvl (emitted s (exec (run_calls cs) s))
  = concat (repeat [(true, 1000); (false, 1000)] (count_blinks cs))
  /\ time_at true (holds lvl (emitted s (exec (run_calls cs) s)))
     = 1000 * Z.of_nat (count_blinks cs)
  /\ time_at false (holds lvl (emitted s (exec (run_calls cs) s)))
     = 1000 * Z.of_nat (count_blinks cs).
Proof.
  rewrite holds_calls. split; [reflexivity | apply time_at_pulses].
Qed.

(** X5. No call sequence ever disturbs another pin of port B: from
    byte-valued registers, every byte written to a register anywhere in the
    sequence, and every register at its end, agrees with that register's
    initial content on all bits other than bit PB0. *)
Theorem calls_never_touch_other_bits (cs : list call) (s : mcu) :
  all_bytes s ->
  Forall (fun w => agree_off_pin (regs s (fst w)) (snd w))
         (writes (emitted s (exec (run_calls cs) s)))
  /\ (forall r, agree_off_pin (regs s r) (regs (exec (run_calls cs) s) r)).
Proof.
  intros Hs. split; [apply calls_frame, Hs|].
  destruct (regs_calls cs s) as [Hd Hp]. intros r. destruct r.
  - rewrite Hd. destruct (existsb is_init cs);
      [apply agree_stored_set, Hs | apply agree_off_pin_refl].
  - rewrite Hp. destruct (existsb is_blink cs);
      [apply agree_stored_clear, Hs | apply agree_off_pin_refl].
Qed.

Lemma calls_never_touch_other_bits_witness :
  all_bytes sample_mcu
  /\ agree_off_pin 0x5B (regs (exec (run_calls sample_calls) sample_mcu) PORTB).
Proof.
  split; [exact all_bytes_sample|].
  destruct (calls_never_touch_other_bits sample_calls sample_mcu
              all_bytes_sample) as [_ H].
  exact (H PORTB).
Defined.



(** X7. [blink_led] does not invert the pin.  From a byte in PORTB its two
    writes store hi, then lo, with lo different from hi; the first write
    stores back the byte it read exactly when bit PB0 was already set, and
    the call leaves PORTB as it found it exactly when bit PB0 was clear. *)
Theorem blink_led_effective_writes (s : mcu) :
  0 <= regs s PORTB < 256 ->
  exists hi lo,
    writes_to PORTB (emitted s (exec blink_led s)) = [hi; lo]
    /\ regs (exec blink_led s) PORTB = lo
    /\ lo <> hi
    /\ (hi = regs s PORTB <-> Z.testbit (regs s PORTB) PB0 = true)
    /\ (lo = regs s PORTB <-> Z.testbit (regs s PORTB) PB0 = false).
Proof.
  intros Hv.
  exists (stored_set (regs s PORTB)).
  exists (stored_clear (stored_set (regs s PORTB))).
  split; [rewrite emitted_blink; reflexivity|].
  split; [reflexivity|]. split; [|split].
  - intros Heq.
    assert (Hbit : Z.testbit (stored_clear (stored_set (regs s PORTB))) PB0
                   = Z.testbit (stored_set (regs s PORTB)) PB0)
      by now rewrite Heq.
    rewrite stored_clear_PB0, stored_set_PB0 in Hbit. discriminate.
  - apply stored_set_fix, Hv.
  - unfold stored_clear at 1, stored_set.
    rewrite Bits.clear_set by apply PB0_bounds.
    apply stored_clear_fix, Hv.
Qed.

Lemma blink_led_effective_writes_witness :
  0 <= regs sample_mcu PORTB < 256
  /\ exists hi lo,
       writes_to PORTB (emitted sample_mcu (exec blink_led sample_mcu))
       = [hi; lo]
       /\ regs (exec blink_led sample_mcu) PORTB = lo
       /\ lo <> hi
       /\ (hi = 0x5B <-> Z.testbit 0x5B PB0 = true)
       /\ (lo = 0x5B <-> Z.testbit 0x5B PB0 = false).
Proof.
  split; [simpl; lia|].
  apply (blink_led_effective_writes sample_mcu). simpl. lia.
Defined.

(** X8. From a byte in DDRB, a call of [blink_led_init] leaves the whole
    register file as it found it exactly when bit PB0 of DDRB was already
    set. *)
Theorem blink_led_init_noop_iff (s : mcu) :
  0 <= regs s DDRB < 256 ->
  ((forall r, regs (exec blink_led_init s) r = regs s r)
   <-> Z.testbit (regs s DDRB) PB0 = true).
Proof.
  intros Hv. split.
  - intros H. apply (stored_set_fix _ Hv). exact (H DDRB).
  - intros H r. destruct r; [|reflexivity].
    apply (stored_set_fix _ Hv). exact H.
Qed.

Lemma blink_led_init_noop_iff_witness :
  0 <= regs sample_mcu DDRB < 256
  /\ ((forall r, regs (exec blink_led_init sample_mcu) r = regs sample_mcu r)
      <-> Z.testbit 0xA4 PB0 = true).
Proof.
  split; [simpl; lia|].
  apply (blink_led_init_noop_iff sample_mcu). simpl. lia.
Defined.

Example holds_on_sample :
  holds true
    (emitted sample_mcu (exec (run_calls sample_calls) sample_mcu))
  = [(true, 1000); (false, 1000); (true, 1000); (false, 1000)]
  /\ clock_ms (exec (run_calls sample_calls) sample_mcu) = 4017.
Proof. split; reflexivity. Qed.
